(** * mockttp: socket utilities, the abstract instance and the control schema

    A shallow embedding of [src/util/socket-util.ts], of the class
    [AbstractMockttp] of [src/mockttp.ts] and of the GraphQL schema of the
    remote-control channel, with the properties the specification states
    about them.  The port allocator and the TLS terminator, whose code is
    not among these files, are modelled from the specification. *)

From Stdlib Require Import ZArith Lia.
From stdpp Require Import base option numbers strings list gmap.

Open Scope string_scope.
Open Scope list_scope.
Open Scope Z_scope.

(** ** Promises

    The state of a JavaScript promise.  Settling a promise that is already
    settled does nothing. *)

Inductive Promise (A : Type) : Type :=
  | Pending
  | Resolved (value : A)
  | Rejected (reason : string).
Arguments Pending {A}.
Arguments Resolved {A} value.
Arguments Rejected {A} reason.

Definition resolve {A} (v : A) (p : Promise A) : Promise A :=
  match p with
  | Pending => Resolved v
  | _ => p
  end.

(** [p.then(k)], for a callback that reports what it did as a list of
    events: the callback runs only once the promise is resolved. *)
Definition thenDo {A E} (p : Promise A) (k : A → list E) : list E :=
  match p with
  | Resolved v => k v
  | _ => []
  end.

Module SocketUtil.

(** A [Buffer] is a sequence of bytes; indexing gives a number, or
    [undefined] (here [None]) out of range. *)
Definition Buffer := list Byte.byte.

Definition byteValue (b : Byte.byte) : Z := Z.of_N (Byte.to_N b).

Definition index (data : Buffer) (i : nat) : option Z :=
  byteValue <$> data !! i.

(** *** The readable side of a [net.Socket]

    Only what [peekFirstByte] touches is modelled: the queue of chunks
    read from the network and not yet handed to a consumer, the
    [readableFlowing] flag ([null], [true] or [false]) and the one-shot
    ['data'] listeners. *)

Record Readable := mkReadable {
  readBuffer : list Buffer;
  flowing : option bool
}.

(** What a listener of the socket can reach: the stream and the promise
    under construction. *)
Record World := mkWorld {
  stream : Readable;
  peeked : Promise (option Z)
}.

Definition Listener := Buffer → World → World.

Record Conn := mkConn {
  world : World;
  onceData : list Listener
}.

Definition pause (w : World) : World :=
  mkWorld (mkReadable (readBuffer (stream w)) (Some false)) (peeked w).

(** A zero-length chunk is never queued, neither by [push] nor by
    [unshift]. *)
Definition isEmpty (chunk : Buffer) : bool :=
  match chunk with [] => true | _ :: _ => false end.

Definition unshift (data : Buffer) (w : World) : World :=
  if isEmpty data then w
  else mkWorld (mkReadable (data :: readBuffer (stream w))
                           (flowing (stream w)))
               (peeked w).

Definition resolvePeek (v : option Z) (w : World) : World :=
  mkWorld (stream w) (resolve v (peeked w)).

(** [socket.once('data', l)]: the listener is queued, and a stream that
    was not explicitly paused is switched to flowing mode. *)
Definition once_data (l : Listener) (c : Conn) : Conn :=
  let s := stream (world c) in
  let fl := match flowing s with
            | Some false => Some false
            | _ => Some true
            end in
  mkConn (mkWorld (mkReadable (readBuffer s) fl) (peeked (world c)))
         (onceData c ++ [l]).

(** One turn of the stream's flow loop.  In flowing mode the head chunk
    is taken off the queue and emitted as ['data'] to the one-shot
    listeners, which are thereby removed.  When the stream is still
    flowing afterwards, the chunks that remain are emitted to no listener
    and are lost. *)
Definition flow (c : Conn) : Conn :=
  match flowing (stream (world c)), readBuffer (stream (world c)) with
  | Some true, chunk :: rest =>
      let w0 := mkWorld (mkReadable rest (Some true)) (peeked (world c)) in
      let w1 := foldl (λ w l, l chunk w) w0 (onceData c) in
      match flowing (stream w1) with
      | Some true => mkConn (mkWorld (mkReadable [] (Some true)) (peeked w1)) []
      | _ => mkConn w1 []
      end
  | _, _ => c
  end.

(** A chunk is read from the network: it joins the tail of the queue and
    the flow loop runs.  A zero-length chunk is dropped: nothing is queued
    and no ['data'] is emitted for it. *)
Definition push (chunk : Buffer) (c : Conn) : Conn :=
  if isEmpty chunk then c
  else
    let w := world c in
    flow (mkConn (mkWorld (mkReadable (readBuffer (stream w) ++ [chunk])
                                      (flowing (stream w)))
                          (peeked w))
                 (onceData c)).

(** What happens to the socket during its life: a chunk is read from the
    network, the peer ends the stream, the socket closes. *)
Inductive SocketEvent :=
  | EvData (chunk : Buffer)
  | EvEnd
  | EvClose (hadError : bool).

(** ['end'] and ['close'] have no listener here, so they change nothing. *)
Definition deliver (c : Conn) (e : SocketEvent) : Conn :=
  match e with
  | EvData chunk => push chunk c
  | EvEnd => c
  | EvClose _ => c
  end.

(** *** [peekFirstByte] *)

(** The listener of line 10: [(data) => { socket.pause();
    socket.unshift(data); resolve(data[0]); }]. *)
Definition peekListener : Listener :=
  λ data w, resolvePeek (index data 0) (unshift data (pause w)).

(** [peekFirstByte(socket)]: a fresh pending promise whose executor
    registers the one-shot listener. *)
Definition peekFirstByte (socket : Readable) : Conn :=
  once_data peekListener (mkConn (mkWorld socket Pending) []).

(** The life of a connection after the call: the deferred [resume] runs
    the flow loop once, then the socket's events are delivered in order. *)
Definition run (socket : Readable) (events : list SocketEvent) : Conn :=
  foldl deliver (flow (peekFirstByte socket)) events.

(** The bytes a downstream reader of the socket will see. *)
Definition pendingBytes (c : Conn) : list Byte.byte :=
  concat (readBuffer (stream (world c))).

(** The chunks of an event sequence that reach the stream. *)
Definition dataChunks (events : list SocketEvent) : list Buffer :=
  omap (λ e, match e with
             | EvData chunk => if isEmpty chunk then None else Some chunk
             | _ => None
             end) events.

(** A socket as [net.Server] hands it over: nothing read yet, or some
    chunks already queued, and never explicitly paused. *)
Definition accepted (queued : list Buffer) : Readable :=
  mkReadable queued None.

(** The two states a peeked connection is found in: while no chunk has
    been seen, and once the first chunk [d] has been peeked with [more]
    behind it. *)
Definition waiting : Conn :=
  mkConn (mkWorld (mkReadable [] (Some true)) Pending) [peekListener].

Definition settled (d : Buffer) (more : list Buffer) : Conn :=
  mkConn (mkWorld (mkReadable (if isEmpty d then more else d :: more)
                              (Some false))
                  (Resolved (index d 0))) [].

(** *** [mightBeTLSHandshake] *)

Definition mightBeTLSHandshake (byte : Z) : bool := byte =? 22.

(** *** [isLocalIPv6Available] *)

(** An entry of [os.networkInterfaces()]; [address] is the only field
    the code reads. *)
Record NetworkInterfaceInfo := mkInfo {
  address : string;
  family : string;
  internal : bool
}.

(** [_.some] over the values of an object, and over an array. *)
Definition some_values {A} (m : gmap string A) (p : A → bool) : bool :=
  existsb p (snd <$> map_to_list m).

Definition some {A} (l : list A) (p : A → bool) : bool := existsb p l.

Definition isLocalIPv6Available
    (networkInterfaces : gmap string (list NetworkInterfaceInfo)) : bool :=
  some_values networkInterfaces
    (λ addresses, some addresses (λ a, bool_decide (address a = "::1"))).

(** *** [isLocalPortActive] *)

(** The parameter type ['::1' | '127.0.0.1']. *)
Inductive InterfaceIp := Ip6Loopback | Ip4Loopback.

Definition ipString (ip : InterfaceIp) : string :=
  match ip with
  | Ip6Loopback => "::1"
  | Ip4Loopback => "127.0.0.1"
  end.

Definition isIp6 (ip : InterfaceIp) : bool :=
  match ip with Ip6Loopback => true | Ip4Loopback => false end.

Record ListenOptions := mkListen {
  host : string;
  port : Z;
  ipv6Only : bool
}.

(** What the function asks of the [net] module, in order. *)
Inductive NetCall :=
  | CreateServer
  | Listen (opts : ListenOptions)
  | CloseServer.

(** What the probing server emits. *)
Inductive ServerEvent :=
  | Listening
  | ServerError (code : string).

(** The probe in flight: the promise, the calls made so far and which of
    the two one-shot listeners are still attached. *)
Record Probe := mkProbe {
  result : Promise bool;
  calls : list NetCall;
  onceListening : bool;
  onceError : bool
}.

Definition serverEmit (pr : Probe) (e : ServerEvent) : Probe :=
  match e with
  | Listening =>
      if onceListening pr
      then mkProbe (resolve false (result pr)) (calls pr ++ [CloseServer])
                   false (onceError pr)
      else pr
  | ServerError _ =>
      if onceError pr
      then mkProbe (resolve true (result pr)) (calls pr)
                   (onceListening pr) false
      else pr
  end.

(** The port numbers [server.listen] accepts; on any other number it
    throws. *)
Definition validPort (port : Z) : bool := (0 <=? port) && (port <=? 65535).

(** [isLocalPortActive(interfaceIp, port)], on a host where the constant
    [isLocalIPv6Available] has the given value and the probing server
    emits the given events.  When [listen] throws, it does so inside the
    executor of the promise, before any listener is attached: the promise
    is rejected and the server emits nothing. *)
Definition isLocalPortActive (ipv6Available : bool)
    (interfaceIp : InterfaceIp) (port : Z) (events : list ServerEvent) : Probe :=
  if isIp6 interfaceIp && negb ipv6Available
  then mkProbe (Resolved false) [] false false
  else
    let opts := mkListen (ipString interfaceIp) port (isIp6 interfaceIp) in
    if validPort port
    then foldl serverEmit (mkProbe Pending [CreateServer; Listen opts] true true)
               events
    else mkProbe (Rejected "ERR_SOCKET_BAD_PORT") [CreateServer; Listen opts]
                 false false.

Definition isListening (e : ServerEvent) : bool :=
  match e with Listening => true | ServerError _ => false end.

Definition bindAttempted (pr : Probe) : bool :=
  existsb (λ c, match c with Listen _ => true | _ => false end) (calls pr).

(** *** Using the two together *)

#[export] Instance byte_eq_dec : EqDecision Byte.byte.
Proof.
  intros a b. destruct (Byte.eqb a b) eqn:E.
  - left. by apply Byte.byte_dec_bl.
  - right. intros ->. by rewrite Byte.byte_dec_lb in E.
Defined.

(** [socket.resume()]: back to flowing mode. *)
Definition resume (s : Readable) : Readable :=
  mkReadable (readBuffer s) (Some true).

(** The stream after one turn of the flow loop with no listener
    attached. *)
Definition flowUnheard (s : Readable) : Readable :=
  stream (world (flow (mkConn (mkWorld s Pending) []))).

(** A socket on which [pause()] was called before. *)
Definition pausedSocket (queued : list Buffer) : Readable :=
  mkReadable queued (Some false).

(** [mightBeTLSHandshake] at what the peek resolved with, a number or
    [undefined]; [undefined === 22] is false. *)
Definition peekedMightBeTLS (firstByte : option Z) : bool :=
  from_option mightBeTLSHandshake false firstByte.

End SocketUtil.

(** ** The port allocator *)

Module PortAllocator.

Inductive StartError := BindError.

(** The argument of [start]: absent, a fixed port or a [PortRange]
    (line 11 of [mockttp.ts]). *)
Record PortRange := mkRange { startPort : Z; endPort : Z }.

Inductive PortParam :=
  | NoPort
  | FixedPort (n : Z)
  | InRange (r : PortRange).

Section Allocator.

(** Whether a port is free on the IPv4 loopback interface, the outcome
    of the liveness probe. *)
Variable free : Z → bool.

(** Modelled from the spec: the implementation of [start] is not part
    of the sources at hand (only its declaration in the [Mockttp]
    interface and its test are).  Section 4.H: candidates are tried in
    ascending order, the first free one wins. *)
Fixpoint scan (candidate : Z) (remaining : nat) : option Z :=
  match remaining with
  | O => None
  | S n => if free candidate then Some candidate
           else scan (candidate + 1) n
  end.

(** Modelled from the spec: the scan of the half-open range
    [[startPort, endPort)]. *)
Definition firstFree (r : PortRange) : option Z :=
  scan (startPort r) (Z.to_nat (endPort r - startPort r)).

(** Modelled from the spec: the range of [start()] without argument. *)
Definition defaultRange : PortRange := mkRange 8000 9000.

(** Modelled from the spec: [start], returning the port the server is
    bound to, or the dedicated error on exhaustion. *)
Definition start (p : PortParam) : StartError + Z :=
  match p with
  | NoPort => from_option inr (inl BindError) (firstFree defaultRange)
  | FixedPort n => if free n then inr n else inl BindError
  | InRange r => from_option inr (inl BindError) (firstFree r)
  end.

End Allocator.

(** The loopback ports once a server is bound to [p]: [p] is taken, the
    others are as before. *)
Definition occupy (p : Z) (free : Z → bool) : Z → bool :=
  λ q, if bool_decide (q = p) then false else free q.

End PortAllocator.

(** ** [AbstractMockttp] *)

Module Mockttp.

(** The enumeration [Method] of [./types]. *)
Inductive Method := GET | POST | PUT | DELETE | PATCH | HEAD | OPTIONS.

(** A [string | RegExp] argument. *)
Inductive UrlPattern :=
  | UrlString (s : string)
  | UrlRegExp (source : string).

Inductive Error := mkError (message : string).

(** How a call ends: with a value, or with a thrown error. *)
Inductive Completion (A : Type) :=
  | Return (a : A)
  | Throw (e : Error).
Arguments Return {A} a.
Arguments Throw {A} e.

#[export] Instance completion_ret : MRet Completion := λ A a, Return a.

#[export] Instance completion_bind : MBind Completion := λ A B k c,
  match c with
  | Return a => k a
  | Throw e => Throw e
  end.

Inductive CAOptions :=
  | CAInline (key cert : string)
  | CAPaths (keyPath certPath : string).

(** [MockttpOptions]: every field is optional. *)
Record MockttpOptions := mkOptions {
  opt_cors : option bool;
  opt_debug : option bool;
  opt_https : option CAOptions;
  opt_standaloneServerUrl : option string
}.

Record ProxyConfig := mkProxyConfig {
  HTTP_PROXY : string;
  HTTPS_PROXY : string
}.

(** [x || false] for an optional boolean [x]. *)
Definition orFalse (x : option bool) : bool :=
  match x with
  | Some true => true
  | _ => false
  end.

(** The two constructor calls of [MockRuleBuilder] the class makes. *)
Inductive MockRuleBuilder (AddRule : Type) :=
  | BuilderForAny (addRule : AddRule)
  | BuilderFor (method : Method) (url : UrlPattern) (addRule : AddRule).
Arguments BuilderForAny {AddRule} addRule.
Arguments BuilderFor {AddRule} method url addRule.

(** The abstract members, which a subclass with state [Sub] supplies. *)
Class Concrete (Sub AddRule : Type) := {
  url : Sub → Completion string;
  addRule : Sub → AddRule
}.

Section AbstractMockttp.

Context {Sub AddRule : Type} `{!Concrete Sub AddRule}.

(** The tag [stripIndent] of [common-tags], applied to the text of the
    template. *)
Variable stripIndent : string → string.

Record AbstractMockttp := mkAbstract {
  cors : bool;
  debug : bool;
  self : Sub
}.

Definition constructor (options : MockttpOptions) (s : Sub) : AbstractMockttp :=
  let debug := orFalse (opt_debug options) in
  let cors := orFalse (opt_cors options) in
  mkAbstract cors debug s.

Definition proxyEnv (this : AbstractMockttp) : Completion ProxyConfig :=
  u1 ← url (self this);
  u2 ← url (self this);
  mret (mkProxyConfig u1 u2).

Definition urlFor (this : AbstractMockttp) (path : string) : Completion string :=
  u ← url (self this);
  mret (u +:+ path).

Definition anyRequest (this : AbstractMockttp) : MockRuleBuilder AddRule :=
  BuilderForAny (addRule (self this)).

Definition get (this : AbstractMockttp) (u : UrlPattern) : MockRuleBuilder AddRule :=
  BuilderFor GET u (addRule (self this)).

Definition post (this : AbstractMockttp) (u : UrlPattern) : MockRuleBuilder AddRule :=
  BuilderFor POST u (addRule (self this)).

Definition put (this : AbstractMockttp) (u : UrlPattern) : MockRuleBuilder AddRule :=
  BuilderFor PUT u (addRule (self this)).

Definition delete (this : AbstractMockttp) (u : UrlPattern) : MockRuleBuilder AddRule :=
  BuilderFor DELETE u (addRule (self this)).

Definition patch (this : AbstractMockttp) (u : UrlPattern) : MockRuleBuilder AddRule :=
  BuilderFor PATCH u (addRule (self this)).

Definition head (this : AbstractMockttp) (u : UrlPattern) : MockRuleBuilder AddRule :=
  BuilderFor HEAD u (addRule (self this)).

Definition corsMessage : string :=
"
                Cannot mock OPTIONS requests with CORS enabled.

                You can disable CORS by passing { cors: false } to getLocal/getRemote, but this may cause issues connecting to your mock server from browsers, unless you mock all required OPTIONS preflight responses by hand.
            ".

Definition options (this : AbstractMockttp) (u : UrlPattern)
    : Completion (MockRuleBuilder AddRule) :=
  if cors this
  then Throw (mkError (stripIndent corsMessage))
  else Return (BuilderFor OPTIONS u (addRule (self this))).

End AbstractMockttp.

Arguments AbstractMockttp Sub : clear implicits.

(** A subclass for examples: its state is the address it listens on,
    absent until it is started, and reading [url] before that throws. *)
Record Sample := mkSample { listening : option string }.

#[export] Instance sampleConcrete : Concrete Sample unit := {
  url s := match listening s with
           | Some u => Return u
           | None => Throw (mkError "Cannot get url before server is started")
           end;
  addRule _ := tt
}.

(** An instance of it, constructed with no option and started since. *)
Definition started : AbstractMockttp Sample :=
  constructor (mkOptions None None None None)
              (mkSample (Some "http://localhost:8000")).

(** An instance that was not started yet. *)
Definition notStarted : AbstractMockttp Sample :=
  constructor (mkOptions None None None None) (mkSample None).

End Mockttp.

(** ** The schema of the remote-control channel *)

Module Schema.

(** A type reference: a named type, a list [[t]] or a non-null [t!]. *)
Inductive TypeRef :=
  | Named (name : string)
  | ListOf (t : TypeRef)
  | NonNull (t : TypeRef).

Record Field := mkField {
  fname : string;
  fargs : list (string * TypeRef);
  ftype : TypeRef
}.

Inductive TypeDef :=
  | ObjectType (name : string) (fields : list Field)
  | InputType (name : string) (fields : list Field)
  | Scalar (name : string).

Definition field (name : string) (t : TypeRef) : Field := mkField name [] t.

(** The schema, definition by definition as the file has them. *)
Definition schema : list TypeDef := [
  ObjectType "Query" [
    field "mockedEndpoints" (NonNull (ListOf (NonNull (Named "MockedEndpoint"))));
    mkField "mockedEndpoint" [("id", (NonNull (Named "ID")))] (Named "MockedEndpoint")
  ];
  ObjectType "Mutation" [
    mkField "addRule" [("input", (NonNull (Named "MockRule")))] (NonNull (Named "MockedEndpoint"));
    field "reset" (NonNull (Named "Boolean"))
  ];
  ObjectType "Subscription" [
    field "requestReceived" (NonNull (Named "Request"));
    field "responseCompleted" (NonNull (Named "Response"));
    field "requestAborted" (NonNull (Named "Request"));
    field "failedTlsRequest" (NonNull (Named "TlsRequest"))
  ];
  ObjectType "MockedEndpoint" [
    field "id" (NonNull (Named "ID"));
    field "seenRequests" (NonNull (ListOf (NonNull (Named "Request"))))
  ];
  InputType "MockRule" [
    field "matchers" (NonNull (ListOf (NonNull (Named "RequestMatcher"))));
    field "handler" (NonNull (Named "RequestHandler"));
    field "completionChecker" (Named "RuleCompletionChecker")
  ];
  ObjectType "TlsRequest" [
    field "failureCause" (NonNull (Named "String"));
    field "hostname" (Named "String");
    field "remoteIpAddress" (NonNull (Named "String"))
  ];
  ObjectType "Request" [
    field "id" (NonNull (Named "ID"));
    field "protocol" (NonNull (Named "String"));
    field "httpVersion" (NonNull (Named "String"));
    field "method" (NonNull (Named "String"));
    field "url" (NonNull (Named "String"));
    field "path" (NonNull (Named "String"));
    field "hostname" (NonNull (Named "String"));
    field "headers" (NonNull (Named "Json"));
    field "body" (NonNull (Named "Buffer"));
    field "timingEvents" (NonNull (Named "Json"))
  ];
  ObjectType "Response" [
    field "id" (NonNull (Named "ID"));
    field "statusCode" (NonNull (Named "Int"));
    field "statusMessage" (NonNull (Named "String"));
    field "headers" (NonNull (Named "Json"));
    field "body" (NonNull (Named "Buffer"));
    field "timingEvents" (NonNull (Named "Json"))
  ];
  Scalar "Any";
  Scalar "Json";
  Scalar "Buffer";
  Scalar "RequestMatcher";
  Scalar "RequestHandler";
  Scalar "RuleCompletionChecker"
].

Definition defName (d : TypeDef) : string :=
  match d with
  | ObjectType n _ | InputType n _ | Scalar n => n
  end.

Definition defFields (d : TypeDef) : list Field :=
  match d with
  | ObjectType _ fs | InputType _ fs => fs
  | Scalar _ => []
  end.

Definition typeDef (sch : list TypeDef) (name : string) : option TypeDef :=
  List.find (λ d, bool_decide (defName d = name)) sch.

Definition fieldsOf (sch : list TypeDef) (name : string) : list Field :=
  from_option defFields [] (typeDef sch name).

Definition fieldOf (sch : list TypeDef) (type name : string) : option Field :=
  List.find (λ f, bool_decide (fname f = name)) (fieldsOf sch type).

Definition fieldNames (sch : list TypeDef) (type : string) : list string :=
  fname <$> fieldsOf sch type.

(** The operations of a root type: name, argument types and result type. *)
Definition operations (sch : list TypeDef) (root : string)
    : list (string * list (string * TypeRef) * TypeRef) :=
  (λ f, (fname f, fargs f, ftype f)) <$> fieldsOf sch root.

(** *** Values on the wire *)

#[warnings="-register-all"]
Inductive Value :=
  | VNull
  | VString (s : string)
  | VInt (n : Z)
  | VBoolean (b : bool)
  | VList (items : list Value)
  | VObject (members : list (string * Value)).

Definition isNull (v : Value) : bool :=
  match v with VNull => true | _ => false end.

Definition member (name : string) (v : Value) : option Value :=
  match v with
  | VObject ms => snd <$> List.find (λ m, bool_decide (fst m = name)) ms
  | _ => None
  end.

(** Whether a value is a non-null value of a built-in scalar; [Int] is
    a signed 32-bit integer. *)
Definition builtin (name : string) (v : Value) : option bool :=
  if bool_decide (name = "String") then
    Some match v with VString _ => true | _ => false end
  else if bool_decide (name = "ID") then
    Some match v with VString _ => true | _ => false end
  else if bool_decide (name = "Int") then
    Some match v with
         | VInt n => (-2147483648 <=? n) && (n <=? 2147483647)
         | _ => false
         end
  else if bool_decide (name = "Boolean") then
    Some match v with VBoolean _ => true | _ => false end
  else None.

(** Whether a value is a complete result of a type of the schema, the
    result of a query that selects every field: [t!] excludes [null],
    every other type admits it; an object carries every field its type
    declares, each with a value of the field's type; a scalar the schema
    declares itself is opaque. *)
Fixpoint conforms (sch : list TypeDef) (v : Value) : TypeRef → bool :=
  fix at_type (t : TypeRef) : bool :=
    match t with
    | NonNull t' => negb (isNull v) && at_type t'
    | ListOf t' =>
        match v with
        | VNull => true
        | VList items => forallb (λ x, conforms sch x t') items
        | _ => false
        end
    | Named n =>
        match v with
        | VNull => true
        | VObject ms =>
            match typeDef sch n with
            | Some (ObjectType _ fs) =>
                forallb (λ f, bool_decide (is_Some (member (fname f) v))) fs
                && forallb (λ m,
                     match List.find (λ f, bool_decide (fname f = fst m)) fs with
                     | Some f => conforms sch (snd m) (ftype f)
                     | None => true
                     end) ms
            | Some (Scalar _) => true
            | _ => false
            end
        | _ =>
            match builtin n v with
            | Some ok => ok
            | None =>
                match typeDef sch n with
                | Some (Scalar _) => true
                | _ => false
                end
            end
        end
    end.

(** *** The data model of the specification

    Section 3 of the specification lists the fields of the three records;
    here under the names the schema gives them. *)
Definition requestRecord : list string :=
  ["id"; "protocol"; "httpVersion"; "method"; "url"; "path"; "hostname";
   "headers"; "body"; "timingEvents"].

Definition responseRecord : list string :=
  ["id"; "statusCode"; "statusMessage"; "headers"; "body"; "timingEvents"].

Definition tlsRequestRecord : list string :=
  ["failureCause"; "hostname"; "remoteIpAddress"].

(** Section 6 of the specification: the operations of the channel, with
    the name of what each yields. *)
Definition specOperations : list (string * list (string * string)) := [
  ("Query", [("mockedEndpoints", "MockedEndpoint"); ("mockedEndpoint", "MockedEndpoint")]);
  ("Mutation", [("addRule", "MockedEndpoint"); ("reset", "Boolean")]);
  ("Subscription", [("requestReceived", "Request"); ("responseCompleted", "Response");
                    ("requestAborted", "Request"); ("failedTlsRequest", "TlsRequest")])
].

(** The named type at the core of a type reference. *)
Fixpoint core (t : TypeRef) : string :=
  match t with
  | Named n => n
  | ListOf t' | NonNull t' => core t'
  end.

Definition yields (sch : list TypeDef) (root : string) : list (string * string) :=
  (λ f, (fname f, core (ftype f))) <$> fieldsOf sch root.

(** *** Checks on a schema *)

Definition isNonNull (t : TypeRef) : bool :=
  match t with NonNull _ => true | _ => false end.

(** The fields, by type and name, whose value may be null. *)
Definition nullableFields (sch : list TypeDef) : list (string * string) :=
  d ← sch;
  f ← defFields d;
  if isNonNull (ftype f) then [] else [(defName d, fname f)].

Definition builtinScalars : list string := ["String"; "ID"; "Int"; "Boolean"].

(** The type names a definition refers to, in results and arguments. *)
Definition referenced (d : TypeDef) : list string :=
  f ← defFields d;
  core (ftype f) :: ((λ a, core (snd a)) <$> fargs f).

(** Every name referred to is defined or built in; no type is defined
    twice; no type declares a field twice. *)
Definition wellFormed (sch : list TypeDef) : bool :=
  forallb (λ d,
    forallb (λ n, bool_decide (n ∈ builtinScalars)
                  || bool_decide (is_Some (typeDef sch n)))
            (referenced d)) sch
  && bool_decide (NoDup (defName <$> sch))
  && forallb (λ d, bool_decide (NoDup (fname <$> defFields d))) sch.

End Schema.

(** ** The TLS terminator *)

Module TlsTerminator.

Import Schema.

(** Modelled from the spec: the [TlsRequest] record of section 3,
    failure cause, hostname (optional, from SNI) and remote IP; the code
    that builds and emits it is not under [src/], only the schema type and
    the declaration of the ['tlsClientError'] subscription are. *)
Record TlsRequest := mkTlsRequest {
  failureCause : string;
  hostname : option string;
  remoteIpAddress : string
}.

(** Modelled from the spec: the states of the terminator, section 4.C. *)
Inductive TlsState := PEEKED | HANDSHAKE_IN_PROGRESS | READY | FAILED.

(** Modelled from the spec: what the terminator meets during a
    handshake: the [ClientHello], with SNI or without, the completion of
    the handshake, or its failure with a cause. *)
Inductive HandshakeStep :=
  | ClientHello (sni : option string)
  | Completed
  | Failure (cause : string).

Record Terminator := mkTerminator {
  state : TlsState;
  servername : option string;
  emitted : list TlsRequest
}.

(** Modelled from the spec: section 4.C.  On [ClientHello] the SNI is
    extracted; on handshake failure a [tlsClientError] event is emitted
    that carries the failure cause, the SNI if any and the remote IP; the
    two terminal states take no further step. *)
Definition handshake (remoteIp : string) (t : Terminator) (s : HandshakeStep)
    : Terminator :=
  match state t with
  | PEEKED | HANDSHAKE_IN_PROGRESS =>
      match s with
      | ClientHello sni => mkTerminator HANDSHAKE_IN_PROGRESS sni (emitted t)
      | Completed => mkTerminator READY (servername t) (emitted t)
      | Failure cause =>
          mkTerminator FAILED (servername t)
            (emitted t ++ [mkTlsRequest cause (servername t) remoteIp])
      end
  | READY | FAILED => t
  end.

(** Modelled from the spec: the terminator on a connection from
    [remoteIp], from the peeked state on. *)
Definition terminate (remoteIp : string) (steps : list HandshakeStep)
    : Terminator :=
  foldl (handshake remoteIp) (mkTerminator PEEKED None []) steps.

(** Modelled from the spec: section 6, the [failedTlsRequest]
    subscription emits the record of section 3; here under the field names
    of the schema, an absent hostname as [null]. *)
Definition toWire (r : TlsRequest) : Value :=
  VObject [("failureCause", VString (failureCause r));
           ("hostname", from_option VString VNull (hostname r));
           ("remoteIpAddress", VString (remoteIpAddress r))].

End TlsTerminator.

(** * Properties *)

(** ** The socket utilities *)

Section SocketFacts.

Import SocketUtil.

Lemma byteValue_inj (a b : Byte.byte) : byteValue a = byteValue b → a = b.
Proof.
  unfold byteValue. intros H. apply N2Z.inj in H.
  assert (Some a = Some b) as E by (rewrite <- !Byte.of_to_N; congruence).
  congruence.
Qed.

Lemma start_empty : flow (peekFirstByte (accepted [])) = waiting.
Proof. reflexivity. Qed.

Lemma start_queued d q :
  flow (peekFirstByte (accepted (d :: q))) = settled d q.
Proof. by destruct d. Qed.

Lemma dataChunks_cons e events :
  dataChunks (e :: events) = dataChunks [e] ++ dataChunks events.
Proof. by destruct e as [[|b chunk]| |h]. Qed.

Lemma deliver_settled d more e :
  deliver (settled d more) e = settled d (more ++ dataChunks [e]).
Proof.
  destruct e as [[|b chunk]| |h]; cbn [deliver push isEmpty dataChunks omap];
    rewrite ?app_nil_r; try reflexivity.
  by destruct d.
Qed.

Lemma run_settled events : ∀ d more,
  foldl deliver (settled d more) events
  = settled d (more ++ dataChunks events).
Proof.
  induction events as [|e events IH]; intros d more.
  - cbn. by rewrite app_nil_r.
  - cbn [foldl]. rewrite deliver_settled, IH, <- app_assoc.
    by rewrite <- dataChunks_cons.
Qed.

Lemma run_waiting events :
  foldl deliver waiting events
  = match dataChunks events with
    | [] => waiting
    | d :: more => settled d more
    end.
Proof.
  induction events as [|e events IH]; [reflexivity|].
  destruct e as [[|b chunk]| |h]; cbn [foldl deliver]; try exact IH.
  change (push (b :: chunk) waiting) with (settled (b :: chunk) []).
  rewrite run_settled. reflexivity.
Qed.

Lemma run_spec queued events :
  run (accepted queued) events
  = match queued ++ dataChunks events with
    | [] => waiting
    | d :: more => settled d more
    end.
Proof.
  unfold run. destruct queued as [|d q].
  - rewrite start_empty. apply run_waiting.
  - rewrite start_queued, run_settled. reflexivity.
Qed.

(** C1: [mightBeTLSHandshake] answers true exactly for the number 22,
    which is 0x16; among the values a byte of a buffer can take, exactly
    for the byte 0x16.  The demultiplexer takes the TLS path on that
    answer and the HTTP path otherwise. *)
Theorem mightBeTLSHandshake_iff_22 :
  (∀ byte : Z, mightBeTLSHandshake byte = true ↔ byte = 22)
  ∧ (∀ byte : Z, mightBeTLSHandshake byte = false ↔ byte ≠ 22)
  ∧ 22 = 0x16
  ∧ (∀ b : Byte.byte,
       mightBeTLSHandshake (byteValue b) = true ↔ b = Byte.x16).
Proof.
  unfold mightBeTLSHandshake. repeat split.
  - apply Z.eqb_eq.
  - intros ->. reflexivity.
  - apply Z.eqb_neq.
  - apply Z.eqb_neq.
  - intros H. apply Z.eqb_eq in H. apply byteValue_inj. exact H.
  - intros ->. reflexivity.
Qed.

(** C2: when the first chunk the socket emits is not empty,
    [peekFirstByte] resolves with the first byte of that chunk, and the
    whole chunk is back at the head of the stream: the chunks queued on
    the paused socket, and hence the bytes a downstream reader sees, are
    those that arrived, in order.  This holds after every sequence of
    events, so from the moment the promise is resolved. *)
Theorem peekFirstByte_reinjects_chunk
    (queued : list Buffer) (events : list SocketEvent)
    (b : Byte.byte) (rest : list Byte.byte) (more : list Buffer) :
  queued ++ dataChunks events = (b :: rest) :: more →
  let c := run (accepted queued) events in
  peeked (world c) = Resolved (Some (byteValue b))
  ∧ readBuffer (stream (world c)) = queued ++ dataChunks events
  ∧ pendingBytes c = concat queued ++ concat (dataChunks events)
  ∧ flowing (stream (world c)) = Some false
  ∧ onceData c = [].
Proof.
  intros Hfirst c. subst c. unfold pendingBytes.
  rewrite run_spec.
  destruct (queued ++ dataChunks events) as [|d m] eqn:E; [discriminate|].
  injection Hfirst as -> ->. cbn -[concat].
  repeat split. rewrite <- E. apply concat_app.
Qed.

Lemma peekFirstByte_reinjects_chunk_witness :
  let c := run (accepted [])
               [EvData [Byte.x16; Byte.x03]; EvData [Byte.x01]] in
  peeked (world c) = Resolved (Some 22)
  ∧ readBuffer (stream (world c)) = [[Byte.x16; Byte.x03]; [Byte.x01]]
  ∧ pendingBytes c = [Byte.x16; Byte.x03] ++ [Byte.x01]
  ∧ flowing (stream (world c)) = Some false
  ∧ onceData c = [].
Proof.
  apply (peekFirstByte_reinjects_chunk []
           [EvData [Byte.x16; Byte.x03]; EvData [Byte.x01]]
           Byte.x16 [Byte.x03] [[Byte.x01]]).
  reflexivity.
Defined.

(** C3: on a connection that ends or closes without a ['data'] event
    the promise of [peekFirstByte] stays pending, neither resolved nor
    rejected, so whatever the caller chained on it never runs: no
    handling and no event follows. *)
Theorem peekFirstByte_pending_without_data (events : list SocketEvent) :
  dataChunks events = [] →
  peeked (world (run (accepted []) events)) = Pending
  ∧ ∀ (E : Type) (k : option Z → list E),
      thenDo (peeked (world (run (accepted []) events))) k = [].
Proof.
  intros Hnone. rewrite run_spec, Hnone. cbn. auto.
Qed.

Lemma peekFirstByte_pending_without_data_witness :
  peeked (world (run (accepted []) [EvEnd; EvClose false])) = Pending
  ∧ ∀ (E : Type) (k : option Z → list E),
      thenDo (peeked (world (run (accepted []) [EvEnd; EvClose false]))) k = [].
Proof.
  apply (peekFirstByte_pending_without_data [EvEnd; EvClose false]).
  reflexivity.
Defined.

Lemma isLocalIPv6Available_spec
    (ifaces : gmap string (list NetworkInterfaceInfo)) :
  isLocalIPv6Available ifaces = true
  ↔ ∃ name addresses a,
      ifaces !! name = Some addresses ∧ a ∈ addresses ∧ address a = "::1".
Proof.
  unfold isLocalIPv6Available, some_values, some.
  rewrite existsb_exists. split.
  - intros (addresses & Hin & Hsome).
    apply list_elem_of_In, list_elem_of_fmap in Hin as ([name x] & -> & Hin).
    apply elem_of_map_to_list in Hin.
    apply existsb_exists in Hsome as (a & Ha & Heq).
    apply list_elem_of_In in Ha. apply bool_decide_eq_true in Heq.
    exists name, x, a. auto.
  - intros (name & addresses & a & Hlook & Ha & Heq).
    exists addresses. split.
    + apply list_elem_of_In, list_elem_of_fmap.
      exists (name, addresses). split; [reflexivity|].
      by apply elem_of_map_to_list.
    + apply existsb_exists. exists a. split.
      * by apply list_elem_of_In.
      * by apply bool_decide_eq_true.
Qed.

Lemma resolve_settled {A} (v : A) (p : Promise A) :
  p ≠ Pending → resolve v p = p.
Proof. by destruct p. Qed.

Lemma serverEmit_result pr e :
  result pr ≠ Pending → result (serverEmit pr e) = result pr.
Proof.
  intros Hset.
  destruct e; cbn; [destruct (onceListening pr)|destruct (onceError pr)];
    cbn; auto using resolve_settled.
Qed.

Lemma serverEmit_settled events : ∀ pr,
  result pr ≠ Pending →
  result (foldl serverEmit pr events) = result pr.
Proof.
  induction events as [|e events IH]; intros pr Hset; [reflexivity|].
  cbn [foldl]. rewrite IH; rewrite serverEmit_result; auto.
Qed.

Lemma serverEmit_calls events : ∀ pr,
  calls (foldl serverEmit pr events)
  = calls pr ++ (if onceListening pr && existsb isListening events
                 then [CloseServer] else []).
Proof.
  induction events as [|e events IH]; intros pr.
  - cbn. by rewrite andb_false_r, app_nil_r.
  - cbn [foldl existsb]. rewrite IH.
    destruct e; cbn.
    + destruct (onceListening pr) eqn:E; cbn; rewrite ?E; cbn;
        by rewrite ?app_nil_r.
    + destruct (onceError pr); reflexivity.
Qed.

Lemma probe_bind (v6 : bool) (ip : InterfaceIp) (p : Z)
    (events : list ServerEvent) :
  0 ≤ p ≤ 65535 →
  ip = Ip4Loopback ∨ v6 = true →
  isLocalPortActive v6 ip p events
  = foldl serverEmit
      (mkProbe Pending
         [CreateServer;
          Listen (mkListen (match ip with
                            | Ip6Loopback => "::1"
                            | Ip4Loopback => "127.0.0.1"
                            end) p
                           (match ip with
                            | Ip6Loopback => true
                            | Ip4Loopback => false
                            end))] true true)
      events.
Proof.
  intros Hport Hip. unfold isLocalPortActive, validPort.
  assert ((0 <=? p) && (p <=? 65535) = true) as ->
    by (apply andb_true_iff; split; apply Z.leb_le; lia).
  destruct Hip as [->| ->]; [reflexivity|by destruct ip].
Qed.

(** C5: for every port, [isLocalPortActive] probes it by binding a
    server on the given loopback address, ['127.0.0.1'] or ['::1'] (then
    with [ipv6Only]): the promise takes the value true when the server's
    first event is an error and false when it is ['listening'] (the
    server is then closed again), and is pending until then.  For ['::1']
    on a host without an address ['::1'] among its interfaces it is false
    at once and no call to the [net] module is made. *)
Theorem isLocalPortActive_probe
    (ifaces : gmap string (list NetworkInterfaceInfo))
    (p : Z) (events : list ServerEvent) :
  0 ≤ p ≤ 65535 →
  let v6 := isLocalIPv6Available ifaces in
  (v6 = true
     ↔ ∃ name addresses a,
         ifaces !! name = Some addresses ∧ a ∈ addresses
         ∧ address a = "::1")
  ∧ (v6 = false →
     isLocalPortActive v6 Ip6Loopback p events
     = mkProbe (Resolved false) [] false false)
  ∧ (∀ ip, ip = Ip4Loopback ∨ v6 = true →
     let pr := isLocalPortActive v6 ip p events in
     result pr
     = match events with
       | [] => Pending
       | Listening :: _ => Resolved false
       | ServerError _ :: _ => Resolved true
       end
     ∧ calls pr
       = [CreateServer;
          Listen (mkListen (match ip with
                            | Ip6Loopback => "::1"
                            | Ip4Loopback => "127.0.0.1"
                            end) p
                           (match ip with
                            | Ip6Loopback => true
                            | Ip4Loopback => false
                            end))]
         ++ (if existsb isListening events then [CloseServer] else [])
     ∧ bindAttempted pr = true).
Proof.
  intros Hport v6. split; [apply isLocalIPv6Available_spec|]. split.
  - intros ->. reflexivity.
  - intros ip Hip pr. subst pr. rewrite (probe_bind v6 ip p events Hport Hip).
    unfold bindAttempted. rewrite serverEmit_calls.
    cbn [calls onceListening andb]. split; [|split; reflexivity].
    destruct events as [|[|code] events]; [reflexivity| |];
      cbn [foldl]; by rewrite serverEmit_settled.
Qed.

Lemma isLocalPortActive_probe_witness :
  let ifaces : gmap string (list NetworkInterfaceInfo) :=
    {["lo" := [mkInfo "127.0.0.1" "IPv4" true]]} in
  let p := 8000 in
  let events := [ServerError "EADDRINUSE"] in
  let v6 := isLocalIPv6Available ifaces in
  (v6 = true
     ↔ ∃ name addresses a,
         ifaces !! name = Some addresses ∧ a ∈ addresses
         ∧ address a = "::1")
  ∧ (v6 = false →
     isLocalPortActive v6 Ip6Loopback p events
     = mkProbe (Resolved false) [] false false)
  ∧ (∀ ip, ip = Ip4Loopback ∨ v6 = true →
     let pr := isLocalPortActive v6 ip p events in
     result pr
     = match events with
       | [] => Pending
       | Listening :: _ => Resolved false
       | ServerError _ :: _ => Resolved true
       end
     ∧ calls pr
       = [CreateServer;
          Listen (mkListen (match ip with
                            | Ip6Loopback => "::1"
                            | Ip4Loopback => "127.0.0.1"
                            end) p
                           (match ip with
                            | Ip6Loopback => true
                            | Ip4Loopback => false
                            end))]
         ++ (if existsb isListening events then [CloseServer] else [])
     ∧ bindAttempted pr = true).
Proof.
  apply (isLocalPortActive_probe
           {["lo" := [mkInfo "127.0.0.1" "IPv4" true]]} 8000
           [ServerError "EADDRINUSE"]).
  lia.
Defined.

End SocketFacts.

(** ** The port allocator *)

Section AllocatorFacts.

Import PortAllocator.

Variable free : Z → bool.

Lemma scan_Some (n : nat) : ∀ (c p : Z),
  scan free c n = Some p
  ↔ c ≤ p < c + Z.of_nat n ∧ free p = true
    ∧ ∀ q, c ≤ q < p → free q = false.
Proof.
  induction n as [|n IH]; intros c p.
  - cbn. split; [discriminate|lia].
  - cbn [scan]. destruct (free c) eqn:Hc.
    + split.
      * intros [= <-]. repeat split; [lia..|assumption|lia].
      * intros ((Hlo & Hhi) & Hp & Hbelow).
        destruct (decide (c = p)) as [->|Hne]; [reflexivity|].
        rewrite (Hbelow c) in Hc by lia. discriminate.
    + rewrite IH. split.
      * intros ((Hlo & Hhi) & Hp & Hbelow). repeat split; [lia..|assumption|].
        intros q Hq. destruct (decide (q = c)) as [->|Hne]; [assumption|].
        apply Hbelow. lia.
      * intros ((Hlo & Hhi) & Hp & Hbelow).
        assert (c ≠ p) by congruence.
        repeat split; [lia..|assumption|].
        intros q Hq. apply Hbelow. lia.
Qed.

Lemma scan_None (n : nat) : ∀ (c : Z),
  scan free c n = None ↔ ∀ q, c ≤ q < c + Z.of_nat n → free q = false.
Proof.
  induction n as [|n IH]; intros c.
  - cbn. split; [lia|reflexivity].
  - cbn [scan]. destruct (free c) eqn:Hc.
    + split; [discriminate|]. intros Hall.
      rewrite (Hall c) in Hc by lia. discriminate.
    + rewrite IH. split; intros Hall q Hq.
      * destruct (decide (q = c)) as [->|Hne]; [assumption|].
        apply Hall. lia.
      * apply Hall. lia.
Qed.

(** C6: [start()] without argument ends bound to a port [p] exactly when
    [p] is the first free port of [[8000, 9000)] in ascending order, so
    [8000 <= p < 9000]; it fails with the dedicated error exactly when
    no port of the range is free. *)
Theorem start_default_first_free (p : Z) :
  (start free NoPort = inr p
     ↔ 8000 ≤ p < 9000 ∧ free p = true
       ∧ ∀ q, 8000 ≤ q < p → free q = false)
  ∧ (start free NoPort = inl BindError
     ↔ ∀ q, 8000 ≤ q < 9000 → free q = false).
Proof.
  unfold start, firstFree, defaultRange. cbn [startPort endPort].
  change (Z.to_nat (9000 - 8000)) with 1000%nat.
  pose proof (scan_Some 1000 8000 p) as HS.
  pose proof (scan_None 1000 8000) as HN.
  change (8000 + Z.of_nat 1000) with 9000 in HS, HN.
  destruct (scan free 8000 1000) as [r|]; cbn [from_option].
  - split.
    + rewrite <- HS. split; congruence.
    + rewrite <- HN. split; discriminate.
  - split.
    + rewrite <- HS. split; discriminate.
    + rewrite <- HN. split; reflexivity.
Qed.

End AllocatorFacts.

(** ** The abstract instance *)

Section MockttpFacts.

Import Mockttp.

Context {Sub AddRule : Type} `{!Concrete Sub AddRule}.
Variable stripIndent : string → string.

Lemma append_empty_r (s : string) : s +:+ "" = s.
Proof.
  induction s as [|c s IH]; [reflexivity|].
  change (String c (s +:+ "") = String c s). by rewrite IH.
Qed.

Lemma constructor_cors (options : MockttpOptions) (s : Sub) :
  cors (constructor options s) = orFalse (opt_cors options).
Proof. reflexivity. Qed.

(** C4: on every instance constructed with [cors: true], [options(url)]
    throws the error that says OPTIONS cannot be mocked with CORS
    enabled; on every instance constructed with [cors: false] it
    returns the builder of an OPTIONS rule for [url]. *)
Theorem options_conflicts_with_cors
    (dbg : option bool) (https : option CAOptions)
    (standalone : option string) (s : Sub) (u : UrlPattern) :
  options stripIndent
    (constructor (mkOptions (Some true) dbg https standalone) s) u
  = Throw (mkError (stripIndent corsMessage))
  ∧ options stripIndent
      (constructor (mkOptions (Some false) dbg https standalone) s) u
    = Return (BuilderFor OPTIONS u (addRule s)).
Proof. split; reflexivity. Qed.

(** C7: on an instance whose [url] can be read, [proxyEnv] is the
    record whose fields [HTTP_PROXY] and [HTTPS_PROXY] both hold that
    URL. *)
Theorem proxyEnv_both_url (this : AbstractMockttp Sub) (u : string) :
  url (self this) = Return u →
  proxyEnv this = Return (mkProxyConfig u u)
  ∧ ∀ cfg, proxyEnv this = Return cfg →
      HTTP_PROXY cfg = u ∧ HTTPS_PROXY cfg = u
      ∧ HTTP_PROXY cfg = HTTPS_PROXY cfg.
Proof.
  intros Hurl. unfold proxyEnv. rewrite Hurl. cbn.
  split; [reflexivity|]. intros cfg [= <-]. auto.
Qed.

(** C10: on an instance whose [url] can be read, [urlFor(path)] is the
    root URL followed by [path], character for character, and
    [urlFor("")] is the root URL. *)
Theorem urlFor_is_concatenation (this : AbstractMockttp Sub) (u path : string) :
  url (self this) = Return u →
  urlFor this path = Return (u +:+ path)
  ∧ urlFor this "" = Return u
  ∧ urlFor this "" = url (self this).
Proof.
  intros Hurl. unfold urlFor. rewrite Hurl. cbn.
  rewrite append_empty_r. auto.
Qed.

End MockttpFacts.

Section MockttpWitnesses.

Import Mockttp.

Lemma proxyEnv_both_url_witness :
  proxyEnv started
  = Return (mkProxyConfig "http://localhost:8000" "http://localhost:8000")
  ∧ ∀ cfg, proxyEnv started = Return cfg →
      HTTP_PROXY cfg = "http://localhost:8000"
      ∧ HTTPS_PROXY cfg = "http://localhost:8000"
      ∧ HTTP_PROXY cfg = HTTPS_PROXY cfg.
Proof.
  apply (proxyEnv_both_url started "http://localhost:8000"). reflexivity.
Defined.

Lemma urlFor_is_concatenation_witness :
  urlFor started "mocked/path" = Return "http://localhost:8000mocked/path"
  ∧ urlFor started "" = Return "http://localhost:8000"
  ∧ urlFor started "" = url (self started).
Proof.
  apply (urlFor_is_concatenation started "http://localhost:8000" "mocked/path").
  reflexivity.
Defined.

End MockttpWitnesses.

(** ** The schema *)

Section SchemaFacts.

Import Schema.

Lemma conforms_nonnull sch v t :
  conforms sch v (NonNull t) = negb (isNull v) && conforms sch v t.
Proof. destruct v; reflexivity. Qed.

Lemma conforms_list sch items t :
  conforms sch (VList items) (ListOf t)
  = forallb (λ x, conforms sch x t) items.
Proof. reflexivity. Qed.

Lemma conforms_object sch ms n :
  conforms sch (VObject ms) (Named n)
  = match typeDef sch n with
    | Some (ObjectType _ fs) =>
        forallb (λ f, bool_decide (is_Some (member (fname f) (VObject ms)))) fs
        && forallb (λ m,
             match List.find (λ f, bool_decide (fname f = fst m)) fs with
             | Some f => conforms sch (snd m) (ftype f)
             | None => true
             end) ms
    | Some (Scalar _) => true
    | _ => false
    end.
Proof. reflexivity. Qed.

(** An object of an object type carries every declared field, with a
    value of the declared type. *)
Lemma conforms_member sch ms n name fs f :
  typeDef sch n = Some (ObjectType name fs) →
  List.find (λ g, bool_decide (fname g = fname f)) fs = Some f →
  conforms sch (VObject ms) (Named n) = true →
  ∃ x, member (fname f) (VObject ms) = Some x
       ∧ conforms sch x (ftype f) = true.
Proof.
  intros Hdef Hfind. rewrite conforms_object, Hdef.
  intros [Hall Hmem]%andb_true_iff.
  rewrite forallb_forall in Hall, Hmem.
  apply find_some in Hfind as Hin. destruct Hin as [Hin _].
  specialize (Hall f Hin). apply bool_decide_eq_true in Hall as [x Hx].
  exists x. split; [assumption|].
  cbn in Hx. destruct (List.find _ ms) as [m|] eqn:Hm; [|discriminate].
  injection Hx as <-.
  apply find_some in Hm as [Hm Hname]. apply bool_decide_eq_true in Hname.
  specialize (Hmem m Hm). rewrite Hname, Hfind in Hmem. exact Hmem.
Qed.

Lemma conforms_boolean v :
  conforms schema v (NonNull (Named "Boolean")) = true
  ↔ ∃ b, v = VBoolean b.
Proof.
  split; [|by intros [b ->]].
  rewrite conforms_nonnull. destruct v; try discriminate; eauto.
Qed.

Lemma conforms_required_id v :
  conforms schema v (NonNull (Named "ID")) = true → ∃ s, v = VString s.
Proof.
  rewrite conforms_nonnull. destruct v; try discriminate; eauto.
Qed.

Lemma conforms_required_list v t :
  conforms schema v (NonNull (ListOf t)) = true →
  ∃ items, v = VList items ∧ ∀ x, x ∈ items → conforms schema x t = true.
Proof.
  rewrite conforms_nonnull. destruct v as [|s|n|b|items|ms]; try discriminate.
  cbn [isNull negb andb]. rewrite conforms_list, forallb_forall. intros Hall.
  exists items. split; [reflexivity|].
  intros x Hx. apply Hall. by apply list_elem_of_In.
Qed.

Lemma conforms_endpoint x :
  conforms schema x (NonNull (Named "MockedEndpoint")) = true →
  ∃ (id : string) (seen : list Value),
    member "id" x = Some (VString id)
    ∧ member "seenRequests" x = Some (VList seen).
Proof.
  rewrite conforms_nonnull. intros [Hnn Hx]%andb_true_iff.
  destruct x as [|s|n|b|items|ms]; try discriminate.
  pose proof (conforms_member schema ms "MockedEndpoint" "MockedEndpoint" _
                (field "id" (NonNull (Named "ID")))
                eq_refl eq_refl Hx) as (i & Hi & Hit).
  pose proof (conforms_member schema ms "MockedEndpoint" "MockedEndpoint" _
                (field "seenRequests"
                   (NonNull (ListOf (NonNull (Named "Request")))))
                eq_refl eq_refl Hx) as (r & Hr & Hrt).
  apply conforms_required_id in Hit as [id ->].
  apply conforms_required_list in Hrt as (seen & -> & _).
  eauto.
Qed.

(** C8: the schema offers the operations of the specification and no
    other: the queries [mockedEndpoints] and [mockedEndpoint], the
    mutations [addRule] and [reset], the four subscriptions.
    [mockedEndpoints] yields a non-null list of non-null endpoints, each
    with an [id] and its [seenRequests]; [addRule] takes a non-null
    [MockRule] (a list of matchers, one handler, an optional completion
    checker) and yields an endpoint; [reset] yields a boolean; the
    subscriptions emit [Request], [Response] and [TlsRequest] records
    with the fields of the data model. *)
Theorem control_schema_matches_spec :
  (λ root, (root, yields schema root)) <$> ["Query"; "Mutation"; "Subscription"]
  = specOperations
  ∧ operations schema "Query"
    = [("mockedEndpoints", [],
        NonNull (ListOf (NonNull (Named "MockedEndpoint"))));
       ("mockedEndpoint", [("id", NonNull (Named "ID"))],
        Named "MockedEndpoint")]
  ∧ operations schema "Mutation"
    = [("addRule", [("input", NonNull (Named "MockRule"))],
        NonNull (Named "MockedEndpoint"));
       ("reset", [], NonNull (Named "Boolean"))]
  ∧ operations schema "Subscription"
    = [("requestReceived", [], NonNull (Named "Request"));
       ("responseCompleted", [], NonNull (Named "Response"));
       ("requestAborted", [], NonNull (Named "Request"));
       ("failedTlsRequest", [], NonNull (Named "TlsRequest"))]
  ∧ typeDef schema "MockedEndpoint"
    = Some (ObjectType "MockedEndpoint"
              [field "id" (NonNull (Named "ID"));
               field "seenRequests"
                 (NonNull (ListOf (NonNull (Named "Request"))))])
  ∧ typeDef schema "MockRule"
    = Some (InputType "MockRule"
              [field "matchers"
                 (NonNull (ListOf (NonNull (Named "RequestMatcher"))));
               field "handler" (NonNull (Named "RequestHandler"));
               field "completionChecker" (Named "RuleCompletionChecker")])
  ∧ fieldNames schema "Request" = requestRecord
  ∧ fieldNames schema "Response" = responseRecord
  ∧ fieldNames schema "TlsRequest" = tlsRequestRecord
  ∧ (∀ v, conforms schema v (NonNull (Named "Boolean")) = true
          ↔ ∃ b, v = VBoolean b)
  ∧ (∀ v, conforms schema v
            (NonNull (ListOf (NonNull (Named "MockedEndpoint")))) = true →
          ∃ items, v = VList items
            ∧ ∀ x, x ∈ items →
                ∃ (id : string) (seen : list Value),
                  member "id" x = Some (VString id)
                  ∧ member "seenRequests" x = Some (VList seen)).
Proof.
  do 9 (split; [reflexivity|]).
  split; [exact conforms_boolean|].
  intros v (items & -> & Hall)%conforms_required_list.
  exists items. split; [reflexivity|].
  intros x Hx. apply conforms_endpoint. by apply Hall.
Qed.

End SchemaFacts.

(** ** The records of failed TLS handshakes *)

Section TlsFacts.

Import Schema TlsTerminator.

Lemma handshake_invariant (remoteIp : string) (steps : list HandshakeStep) :
  ∀ (t : Terminator) (seen : list HandshakeStep),
    (∀ h, servername t = Some h → ClientHello (Some h) ∈ seen) →
    (∀ r, r ∈ emitted t →
          remoteIpAddress r = remoteIp
          ∧ Failure (failureCause r) ∈ seen
          ∧ ∀ h, hostname r = Some h → ClientHello (Some h) ∈ seen) →
    ∀ r, r ∈ emitted (foldl (handshake remoteIp) t steps) →
         remoteIpAddress r = remoteIp
         ∧ Failure (failureCause r) ∈ seen ++ steps
         ∧ ∀ h, hostname r = Some h → ClientHello (Some h) ∈ seen ++ steps.
Proof.
  induction steps as [|s steps IH]; intros t seen Hname Hrec r Hr.
  - rewrite app_nil_r. by apply Hrec.
  - cbn [foldl] in Hr.
    replace (seen ++ s :: steps) with ((seen ++ [s]) ++ steps)
      by (by rewrite <- app_assoc).
    revert r Hr. apply IH.
    + intros h. unfold handshake.
      destruct (state t), s as [sni| |cause]; cbn [servername];
        intros Hh; rewrite elem_of_app;
        try (left; by apply Hname).
      all: right; subst; apply list_elem_of_here.
    + intros r. unfold handshake.
      assert (∀ r, r ∈ emitted t →
                remoteIpAddress r = remoteIp
                ∧ Failure (failureCause r) ∈ seen ++ [s]
                ∧ ∀ h, hostname r = Some h →
                       ClientHello (Some h) ∈ seen ++ [s]) as Hold.
      { intros r' Hr'. destruct (Hrec r' Hr') as (Hip & Hcause & Hsni).
        repeat split; [assumption|..].
        - apply elem_of_app. by left.
        - intros h Hh. apply elem_of_app. left. by apply Hsni. }
      destruct (state t), s as [sni| |cause]; cbn [emitted];
        try apply Hold.
      all: intros [Hr|Hr]%elem_of_app; [by apply Hold|].
      all: apply list_elem_of_singleton in Hr as ->;
        cbn [remoteIpAddress failureCause hostname].
      all: repeat split; [apply elem_of_app; right; apply list_elem_of_here|].
      all: intros h Hh; apply elem_of_app; left; by apply Hname.
Qed.

(** C9: every record the TLS terminator emits on a failed handshake
    carries the failure cause and the remote IP of the connection, and a
    hostname only when the client's [ClientHello] supplied it as SNI.  On
    the wire [failureCause] and [remoteIpAddress] are strings, never null,
    and [hostname] is null exactly when there was no SNI; the record has
    the type [TlsRequest!] the schema declares for [failedTlsRequest],
    whose fields are [failureCause: String!], [hostname: String] and
    [remoteIpAddress: String!]. *)
Theorem tlsClientError_record_fields
    (remoteIp : string) (steps : list HandshakeStep) (r : TlsRequest) :
  r ∈ emitted (terminate remoteIp steps) →
  remoteIpAddress r = remoteIp
  ∧ Failure (failureCause r) ∈ steps
  ∧ (∀ h, hostname r = Some h → ClientHello (Some h) ∈ steps)
  ∧ member "failureCause" (toWire r) = Some (VString (failureCause r))
  ∧ member "remoteIpAddress" (toWire r) = Some (VString remoteIp)
  ∧ (member "hostname" (toWire r) = Some VNull ↔ hostname r = None)
  ∧ (∀ h, member "hostname" (toWire r) = Some (VString h)
          ↔ hostname r = Some h)
  ∧ conforms schema (toWire r) (NonNull (Named "TlsRequest")) = true
  ∧ fieldsOf schema "TlsRequest"
    = [field "failureCause" (NonNull (Named "String"));
       field "hostname" (Named "String");
       field "remoteIpAddress" (NonNull (Named "String"))]
  ∧ ftype <$> fieldOf schema "Subscription" "failedTlsRequest"
    = Some (NonNull (Named "TlsRequest")).
Proof.
  intros Hr.
  destruct (handshake_invariant remoteIp steps (mkTerminator PEEKED None []) []
              ltac:(discriminate)
              ltac:(by intros ? ?%elem_of_nil) r Hr)
    as (Hip & Hcause & Hsni).
  destruct r as [cause host ip]. cbn [remoteIpAddress failureCause hostname] in *.
  subst ip. repeat split; try assumption.
  - by destruct host.
  - by destruct host.
  - by destruct host; intros [= ->].
  - by intros [= ->].
  - by destruct host.
Qed.

Lemma tlsClientError_record_fields_witness :
  let r := mkTlsRequest "cert-rejected" (Some "example.com") "127.0.0.1" in
  let steps := [ClientHello (Some "example.com"); Failure "cert-rejected"] in
  remoteIpAddress r = "127.0.0.1"
  ∧ Failure (failureCause r) ∈ steps
  ∧ (∀ h, hostname r = Some h → ClientHello (Some h) ∈ steps)
  ∧ member "failureCause" (toWire r) = Some (VString (failureCause r))
  ∧ member "remoteIpAddress" (toWire r) = Some (VString "127.0.0.1")
  ∧ (member "hostname" (toWire r) = Some VNull ↔ hostname r = None)
  ∧ (∀ h, member "hostname" (toWire r) = Some (VString h)
          ↔ hostname r = Some h)
  ∧ conforms schema (toWire r) (NonNull (Named "TlsRequest")) = true
  ∧ fieldsOf schema "TlsRequest"
    = [field "failureCause" (NonNull (Named "String"));
       field "hostname" (Named "String");
       field "remoteIpAddress" (NonNull (Named "String"))]
  ∧ ftype <$> fieldOf schema "Subscription" "failedTlsRequest"
    = Some (NonNull (Named "TlsRequest")).
Proof.
  apply (tlsClientError_record_fields "127.0.0.1"
           [ClientHello (Some "example.com"); Failure "cert-rejected"]
           (mkTlsRequest "cert-rejected" (Some "example.com") "127.0.0.1")).
  apply list_elem_of_here.
Defined.

End TlsFacts.

(** * Further properties *)

(** ** Peeking more than once, and on a paused socket *)

Section PeekFacts.

Import SocketUtil.

Lemma run_unpaused (s : Readable) (events : list SocketEvent) :
  flowing s ≠ Some false →
  run s events
  = match readBuffer s ++ dataChunks events with
    | [] => waiting
    | d :: more => settled d more
    end.
Proof.
  intros Hfl. destruct s as [q fl]. cbn [flowing] in Hfl.
  assert (flow (peekFirstByte (mkReadable q fl))
          = match q with [] => waiting | d :: m => settled d m end) as Hstart.
  { destruct fl as [[|]|]; [|congruence|]; by destruct q as [|[|b d] m]. }
  unfold run. rewrite Hstart. destruct q as [|d m]; cbn [readBuffer].
  - apply run_waiting.
  - apply run_settled.
Qed.

Lemma dataChunks_head_nonempty (events : list SocketEvent) d m :
  dataChunks events = d :: m → isEmpty d = false.
Proof.
  induction events as [|e events IH]; [discriminate|].
  destruct e as [[|x chunk]| |h]; cbn; try exact IH.
  by intros [= <- _].
Qed.

Lemma run_paused (events : list SocketEvent) : ∀ queued,
  run (pausedSocket queued) events
  = mkConn (mkWorld (mkReadable (queued ++ dataChunks events) (Some false))
                    Pending)
           [peekListener].
Proof.
  unfold run.
  change (∀ queued,
    foldl deliver
      (mkConn (mkWorld (mkReadable queued (Some false)) Pending) [peekListener])
      events
    = mkConn (mkWorld (mkReadable (queued ++ dataChunks events) (Some false))
                      Pending) [peekListener]).
  induction events as [|e events IH]; intros queued.
  - cbn. by rewrite app_nil_r.
  - destruct e as [[|b chunk]| |h]; cbn [foldl deliver]; [apply IH| |apply IH..].
    change (push (b :: chunk) _)
      with (mkConn (mkWorld (mkReadable (queued ++ [b :: chunk]) (Some false))
                            Pending) [peekListener]).
    rewrite IH, <- app_assoc. reflexivity.
Qed.

(** X1: on a socket that was explicitly paused, [peekFirstByte] never
    settles, whatever arrives: the listener stays attached, and every
    chunk stays queued in order. *)
Theorem peekFirstByte_paused_socket_hangs
    (queued : list Buffer) (events : list SocketEvent) :
  let c := run (pausedSocket queued) events in
  peeked (world c) = Pending
  ∧ readBuffer (stream (world c)) = queued ++ dataChunks events
  ∧ flowing (stream (world c)) = Some false
  ∧ length (onceData c) = 1%nat.
Proof. cbn zeta. rewrite run_paused. by repeat split. Qed.

(** X2: the peek leaves the socket paused.  A second [peekFirstByte]
    made without [resume()] never settles.  After [resume()], a second
    peek made at once, before the stream flows again, resolves with the
    same value as the first; in both cases the stream holds every chunk
    that arrived, in order.  When the stream flows once between
    [resume()] and the second peek, the queued chunks are emitted to no
    listener and are lost: the second peek then sees only what arrives
    later. *)
Theorem peekFirstByte_again
    (queued : list Buffer) (events later : list SocketEvent)
    (b : Byte.byte) (rest : list Byte.byte) (more : list Buffer) :
  queued ++ dataChunks events = (b :: rest) :: more →
  let first := run (accepted queued) events in
  let again := run (stream (world first)) later in
  let resumed := run (resume (stream (world first))) later in
  let drained := run (flowUnheard (resume (stream (world first)))) later in
  peeked (world again) = Pending
  ∧ readBuffer (stream (world again))
    = queued ++ dataChunks events ++ dataChunks later
  ∧ peeked (world resumed) = peeked (world first)
  ∧ readBuffer (stream (world resumed))
    = queued ++ dataChunks events ++ dataChunks later
  ∧ peeked (world drained)
    = match dataChunks later with
      | [] => Pending
      | d :: _ => Resolved (index d 0)
      end
  ∧ readBuffer (stream (world drained)) = dataChunks later.
Proof.
  intros Hfirst. cbn zeta. rewrite run_spec, app_assoc, Hfirst.
  change (stream (world (settled (b :: rest) more)))
    with (pausedSocket ((b :: rest) :: more)).
  change (flowUnheard (resume (pausedSocket ((b :: rest) :: more))))
    with (mkReadable [] (Some true)).
  rewrite run_paused, !run_unpaused by (cbn; congruence).
  cbn [resume pausedSocket readBuffer app].
  repeat split.
  - by destruct (dataChunks later).
  - destruct (dataChunks later) as [|d m] eqn:Hlater; [reflexivity|].
    cbn. by rewrite (dataChunks_head_nonempty later d m).
Qed.

Lemma peekFirstByte_again_witness :
  let first := run (accepted []) [EvData [Byte.x47; Byte.x45]] in
  let again := run (stream (world first)) [EvData [Byte.x54]] in
  let resumed := run (resume (stream (world first))) [EvData [Byte.x54]] in
  let drained :=
    run (flowUnheard (resume (stream (world first)))) [EvData [Byte.x54]] in
  peeked (world again) = Pending
  ∧ readBuffer (stream (world again))
    = [] ++ dataChunks [EvData [Byte.x47; Byte.x45]]
         ++ dataChunks [EvData [Byte.x54]]
  ∧ peeked (world resumed) = peeked (world first)
  ∧ readBuffer (stream (world resumed))
    = [] ++ dataChunks [EvData [Byte.x47; Byte.x45]]
         ++ dataChunks [EvData [Byte.x54]]
  ∧ peeked (world drained)
    = match dataChunks [EvData [Byte.x54]] with
      | [] => Pending
      | d :: _ => Resolved (index d 0)
      end
  ∧ readBuffer (stream (world drained)) = dataChunks [EvData [Byte.x54]].
Proof.
  apply (peekFirstByte_again [] [EvData [Byte.x47; Byte.x45]]
           [EvData [Byte.x54]] Byte.x47 [Byte.x45] []).
  reflexivity.
Defined.

(** X3: what [mightBeTLSHandshake] answers on the peeked value is decided
    by the first byte that reaches the stream: true exactly when that
    byte is 0x16, whatever arrives later.  Zero-length chunks do not
    count: none is queued or emitted. *)
Theorem peeked_classification
    (queued : list Buffer) (events : list SocketEvent)
    (b : Byte.byte) (rest : list Byte.byte) (more : list Buffer) :
  queued ++ dataChunks events = (b :: rest) :: more →
  thenDo (peeked (world (run (accepted queued) events)))
         (λ firstByte, [peekedMightBeTLS firstByte])
  = [bool_decide (b = Byte.x16)].
Proof.
  intros Hfirst. rewrite run_spec, Hfirst. cbn [settled world peeked thenDo].
  f_equal.
  cbn [index lookup list_lookup fmap option_fmap option_map peekedMightBeTLS
       from_option].
  unfold mightBeTLSHandshake.
  destruct (decide (b = Byte.x16)) as [->|Hne].
  - reflexivity.
  - rewrite bool_decide_eq_false_2 by congruence.
    apply Z.eqb_neq. intros Heq. apply Hne. by apply byteValue_inj.
Qed.

Lemma peeked_classification_witness :
  thenDo (peeked (world (run (accepted [])
                             [EvData []; EvData [Byte.x16; Byte.x03];
                              EvData [Byte.x47]])))
         (λ firstByte, [peekedMightBeTLS firstByte])
  = [bool_decide (Byte.x16 = Byte.x16)].
Proof.
  apply (peeked_classification []
           [EvData []; EvData [Byte.x16; Byte.x03]; EvData [Byte.x47]]
           Byte.x16 [Byte.x03] [[Byte.x47]]).
  reflexivity.
Defined.

(** X4: [isLocalIPv6Available] can only turn true when interfaces are
    added: a host with every interface of another, under the same names
    and with the same addresses, has the address ['::1'] whenever the
    other has. *)
Theorem isLocalIPv6Available_monotone
    (ifaces more : gmap string (list NetworkInterfaceInfo)) :
  ifaces ⊆ more →
  isLocalIPv6Available ifaces = true →
  isLocalIPv6Available more = true.
Proof.
  intros Hsub. rewrite !isLocalIPv6Available_spec.
  intros (name & addresses & a & Hlook & Ha & Heq).
  exists name, addresses, a. split; [|by split].
  by eapply lookup_weaken.
Qed.

Lemma isLocalIPv6Available_monotone_witness :
  isLocalIPv6Available
    (<["eth0" := [mkInfo "10.0.0.2" "IPv4" false]]>
       {["lo" := [mkInfo "127.0.0.1" "IPv4" true; mkInfo "::1" "IPv6" true]]})
  = true.
Proof.
  apply (isLocalIPv6Available_monotone
           {["lo" := [mkInfo "127.0.0.1" "IPv4" true; mkInfo "::1" "IPv6" true]]}).
  - apply insert_subseteq. reflexivity.
  - reflexivity.
Defined.

End PeekFacts.

(** ** The abstract instance: defaults, errors and paths *)

Section InstanceFacts.

Import Mockttp.

Context {Sub AddRule : Type} `{!Concrete Sub AddRule}.
Variable stripIndent : string → string.

Lemma append_assoc (a b c : string) : (a +:+ b) +:+ c = a +:+ (b +:+ c).
Proof.
  induction a as [|x a IH]; [reflexivity|].
  change (String x ((a +:+ b) +:+ c) = String x (a +:+ (b +:+ c))).
  by rewrite IH.
Qed.

Lemma append_cancel_l (a b c : string) : a +:+ b = a +:+ c → b = c.
Proof.
  induction a as [|x a IH]; [by intros|].
  change (String x (a +:+ b) = String x (a +:+ c) → b = c).
  intros [= Heq]. by apply IH.
Qed.

(** X5: [options(url)] throws exactly on the instances constructed with
    [cors: true]; with [cors] omitted it behaves as with [cors: false] and
    returns the builder of an OPTIONS rule.  The [debug] option and the
    others play no part. *)
Theorem options_throws_iff_cors
    (opts : MockttpOptions) (s : Sub) (u : UrlPattern) :
  ((∃ e, options stripIndent (constructor opts s) u = Throw e)
     ↔ opt_cors opts = Some true)
  ∧ (options stripIndent (constructor opts s) u
       = Return (BuilderFor OPTIONS u (addRule s))
     ↔ opt_cors opts ≠ Some true).
Proof.
  unfold options, constructor. cbn [cors self].
  destruct opts as [[[|]|] dbg https standalone]; cbn [opt_cors orFalse];
    (split; split; intros H);
    try reflexivity; try congruence; try (destruct H; discriminate);
    eauto.
Qed.

(** X6: while reading [url] throws, as it does before the server is
    started, [proxyEnv] and [urlFor(path)] throw that same error, for
    every path. *)
Theorem url_error_propagates (this : AbstractMockttp Sub) (e : Error) :
  url (self this) = Throw e →
  proxyEnv this = Throw e ∧ ∀ path, urlFor this path = Throw e.
Proof.
  intros Hurl. unfold proxyEnv, urlFor. rewrite Hurl. by split.
Qed.

(** X7: [urlFor] of a path in two parts is [urlFor] of the first part
    followed by the second. *)
Theorem urlFor_appends (this : AbstractMockttp Sub) (p q r : string) :
  urlFor this p = Return r →
  urlFor this (p +:+ q) = Return (r +:+ q).
Proof.
  unfold urlFor. destruct (url (self this)) as [u|e]; [|discriminate].
  cbn. intros [= <-]. by rewrite append_assoc.
Qed.

(** X8: on one instance, different paths have different URLs: when
    [urlFor] returns the same string for two paths, the paths are equal. *)
Theorem urlFor_injective (this : AbstractMockttp Sub) (p q r : string) :
  urlFor this p = Return r →
  urlFor this q = Return r →
  p = q.
Proof.
  unfold urlFor. destruct (url (self this)) as [u|e]; [|discriminate].
  cbn. intros [= <-] [= Heq]. symmetry. by eapply append_cancel_l.
Qed.

End InstanceFacts.

Section InstanceWitnesses.

Import Mockttp.

Lemma url_error_propagates_witness :
  proxyEnv notStarted
  = Throw (mkError "Cannot get url before server is started")
  ∧ ∀ path, urlFor notStarted path
            = Throw (mkError "Cannot get url before server is started").
Proof.
  apply (url_error_propagates notStarted
           (mkError "Cannot get url before server is started")).
  reflexivity.
Defined.

Lemma urlFor_appends_witness :
  urlFor started ("/mocked" +:+ "/path")
  = Return ("http://localhost:8000/mocked" +:+ "/path").
Proof.
  apply (urlFor_appends started "/mocked" "/path"
           "http://localhost:8000/mocked").
  reflexivity.
Defined.

Lemma urlFor_injective_witness : "/a" +:+ "/b" = "/a/b".
Proof.
  apply (urlFor_injective started ("/a" +:+ "/b") "/a/b"
           "http://localhost:8000/a/b"); reflexivity.
Defined.

End InstanceWitnesses.

(** ** The schema: well-formedness and nullability *)

Section SchemaChecks.

Import Schema.

Lemma conforms_null sch t : conforms sch VNull t = negb (isNonNull t).
Proof. by destruct t. Qed.

Lemma wellFormed_spec (sch : list TypeDef) :
  wellFormed sch = true →
  (∀ d n, d ∈ sch → n ∈ referenced d →
          n ∈ builtinScalars ∨ is_Some (typeDef sch n))
  ∧ NoDup (defName <$> sch)
  ∧ ∀ d, d ∈ sch → NoDup (fname <$> defFields d).
Proof.
  unfold wellFormed. intros [[Hclosed Hnames]%andb_true_iff Hfields]%andb_true_iff.
  rewrite forallb_forall in Hclosed, Hfields.
  split; [|split].
  - intros d n Hd Hn. apply list_elem_of_In in Hd.
    specialize (Hclosed d Hd). rewrite forallb_forall in Hclosed.
    apply list_elem_of_In in Hn. specialize (Hclosed n Hn).
    apply orb_true_iff in Hclosed as [H|H]; apply bool_decide_eq_true in H; auto.
  - by apply bool_decide_eq_true in Hnames.
  - intros d Hd. apply list_elem_of_In in Hd.
    specialize (Hfields d Hd). by apply bool_decide_eq_true in Hfields.
Qed.

(** X9: the schema is closed and free of clashes: every type a result or
    an argument refers to is one of the built-in scalars or is defined in
    the schema, no type is defined twice, and no type declares two fields
    of one name. *)
Theorem schema_well_formed :
  (∀ d n, d ∈ schema → n ∈ referenced d →
          n ∈ builtinScalars ∨ is_Some (typeDef schema n))
  ∧ NoDup (defName <$> schema)
  ∧ ∀ d, d ∈ schema → NoDup (fname <$> defFields d).
Proof. apply wellFormed_spec. by vm_compute. Qed.

(** X10: null is a value of a field's type for three fields only, the
    result of the query [mockedEndpoint], the input field
    [completionChecker] of [MockRule] and [hostname] of [TlsRequest];
    every other field of the schema is never null. *)
Theorem schema_nullable_fields (d : TypeDef) (f : Field) :
  d ∈ schema → f ∈ defFields d →
  (conforms schema VNull (ftype f) = true
   ↔ (defName d, fname f)
       ∈ [("Query", "mockedEndpoint"); ("MockRule", "completionChecker");
          ("TlsRequest", "hostname")])
  ∧ ((defName d, fname f) ∈ nullableFields schema
     ↔ conforms schema VNull (ftype f) = true).
Proof.
  intros Hd Hf.
  assert (forallb (λ d, forallb (λ f,
            bool_decide (negb (isNonNull (ftype f))
                         = bool_decide ((defName d, fname f)
                                          ∈ nullableFields schema)))
            (defFields d)) schema = true) as Hall by by vm_compute.
  rewrite forallb_forall in Hall.
  apply list_elem_of_In in Hd. specialize (Hall d Hd).
  rewrite forallb_forall in Hall.
  apply list_elem_of_In in Hf. specialize (Hall f Hf).
  apply bool_decide_eq_true in Hall.
  rewrite conforms_null, Hall.
  change (nullableFields schema)
    with [("Query", "mockedEndpoint"); ("MockRule", "completionChecker");
          ("TlsRequest", "hostname")].
  split; by rewrite bool_decide_eq_true.
Qed.

Lemma schema_nullable_fields_witness :
  (conforms schema VNull (Named "String") = true
   ↔ ("TlsRequest", "hostname")
       ∈ [("Query", "mockedEndpoint"); ("MockRule", "completionChecker");
          ("TlsRequest", "hostname")])
  ∧ (("TlsRequest", "hostname") ∈ nullableFields schema
     ↔ conforms schema VNull (Named "String") = true).
Proof.
  apply (schema_nullable_fields
           (ObjectType "TlsRequest"
              [field "failureCause" (NonNull (Named "String"));
               field "hostname" (Named "String");
               field "remoteIpAddress" (NonNull (Named "String"))])
           (field "hostname" (Named "String"))).
  - repeat first [apply list_elem_of_here | apply list_elem_of_further].
  - repeat first [apply list_elem_of_here | apply list_elem_of_further].
Defined.

End SchemaChecks.

(** ** Two servers in one port range *)

Section RangeFacts.

Import PortAllocator.

Lemma start_range (free : Z → bool) (r : PortRange) (p : Z) :
  start free (InRange r) = inr p ↔ firstFree free r = Some p.
Proof.
  unfold start. destruct (firstFree free r); cbn; split; congruence.
Qed.

(** X12: when a server started on a range is bound to a port and a
    second server is started on the same range while the first holds its
    port, the second is bound to a strictly greater port; both ports are
    at or above the start of the range and were free. *)
Theorem start_range_second_server
    (free : Z → bool) (r : PortRange) (p1 p2 : Z) :
  start free (InRange r) = inr p1 →
  start (occupy p1 free) (InRange r) = inr p2 →
  startPort r ≤ p1 ∧ p1 < p2 ∧ free p1 = true ∧ free p2 = true.
Proof.
  rewrite !start_range. unfold firstFree. rewrite !scan_Some.
  intros ((Hlo1 & Hhi1) & Hfree1 & Hbelow1) ((Hlo2 & Hhi2) & Hfree2 & Hbelow2).
  unfold occupy in Hfree2.
  destruct (bool_decide (p2 = p1)) eqn:Hsame; [discriminate|].
  apply bool_decide_eq_false in Hsame.
  repeat split; try assumption.
  destruct (decide (p1 < p2)) as [|Hge]; [assumption|].
  rewrite Hbelow1 in Hfree2 by lia. discriminate.
Qed.

Lemma start_range_second_server_witness :
  10000 ≤ 10000 ∧ 10000 < 10001
  ∧ (λ _ : Z, true) 10000 = true ∧ (λ _ : Z, true) 10001 = true.
Proof.
  apply (start_range_second_server (λ _, true) (mkRange 10000 15000)
           10000 10001); reflexivity.
Defined.

End RangeFacts.

(** ** The peek and the segmentation of the stream *)

Section SegmentationFacts.

Import SocketUtil.

(** X13: the peek does not depend on how the network splits the bytes
    into chunks: two connections that receive the same bytes, each with a
    first chunk that is not empty, resolve with the same first byte and
    leave the same bytes to the downstream reader. *)
Theorem peekFirstByte_segmentation_independent
    (events1 events2 : list SocketEvent)
    (b1 b2 : Byte.byte) (rest1 rest2 : list Byte.byte)
    (more1 more2 : list Buffer) :
  dataChunks events1 = (b1 :: rest1) :: more1 →
  dataChunks events2 = (b2 :: rest2) :: more2 →
  concat (dataChunks events1) = concat (dataChunks events2) →
  peeked (world (run (accepted []) events1))
  = peeked (world (run (accepted []) events2))
  ∧ pendingBytes (run (accepted []) events1)
    = pendingBytes (run (accepted []) events2).
Proof.
  intros H1 H2 Hbytes. unfold pendingBytes. rewrite !run_spec.
  cbn [app]. rewrite H1, H2 in *. cbn [settled world stream peeked readBuffer].
  split; [|exact Hbytes].
  cbn in Hbytes. injection Hbytes as -> _. reflexivity.
Qed.

Lemma peekFirstByte_segmentation_independent_witness :
  peeked (world (run (accepted [])
                     [EvData [Byte.x16; Byte.x03]; EvData [Byte.x01]]))
  = peeked (world (run (accepted [])
                       [EvData [Byte.x16]; EvData [Byte.x03; Byte.x01]]))
  ∧ pendingBytes (run (accepted [])
                      [EvData [Byte.x16; Byte.x03]; EvData [Byte.x01]])
    = pendingBytes (run (accepted [])
                        [EvData [Byte.x16]; EvData [Byte.x03; Byte.x01]]).
Proof.
  apply (peekFirstByte_segmentation_independent
           [EvData [Byte.x16; Byte.x03]; EvData [Byte.x01]]
           [EvData [Byte.x16]; EvData [Byte.x03; Byte.x01]]
           Byte.x16 Byte.x16 [Byte.x03] [] [[Byte.x01]] [[Byte.x03; Byte.x01]]);
    reflexivity.
Defined.

End SegmentationFacts.

(** ** The probe on a number that is no port *)

Section ProbeFacts.

Import SocketUtil.

(** X14: on a number outside 0..65535 [listen] throws inside the
    executor, so the promise of [isLocalPortActive] is rejected, with no
    listener attached, and no event of the server settles it otherwise;
    only the early return for ['::1'] on a host without IPv6 loopback
    still answers false, since it comes before the call. *)
Theorem isLocalPortActive_invalid_port
    (v6 : bool) (p : Z) (events : list ServerEvent) :
  ¬ (0 ≤ p ≤ 65535) →
  (∀ ip, ip = Ip4Loopback ∨ v6 = true →
     let pr := isLocalPortActive v6 ip p events in
     (∃ reason, result pr = Rejected reason)
     ∧ onceListening pr = false ∧ onceError pr = false
     ∧ CloseServer ∉ calls pr)
  ∧ (v6 = false →
     result (isLocalPortActive v6 Ip6Loopback p events) = Resolved false).
Proof.
  intros Hport. split.
  - intros ip Hip pr. subst pr. unfold isLocalPortActive, validPort.
    assert ((0 <=? p) && (p <=? 65535) = false) as ->.
    { apply andb_false_iff.
      destruct (decide (0 ≤ p)); [right|left]; apply Z.leb_gt; lia. }
    assert (isIp6 ip && negb v6 = false) as ->
      by (destruct Hip as [->| ->]; [reflexivity|by destruct ip]).
    cbn. repeat split; [by eexists|].
    intros Hin. repeat (apply elem_of_cons in Hin as [Hin|Hin]; [discriminate|]).
    by apply elem_of_nil in Hin.
  - intros ->. reflexivity.
Qed.

Lemma isLocalPortActive_invalid_port_witness :
  (∀ ip, ip = Ip4Loopback ∨ true = true →
     let pr := isLocalPortActive true ip 70000 [Listening] in
     (∃ reason, result pr = Rejected reason)
     ∧ onceListening pr = false ∧ onceError pr = false
     ∧ CloseServer ∉ calls pr)
  ∧ (true = false →
     result (isLocalPortActive true Ip6Loopback 70000 [Listening])
     = Resolved false).
Proof.
  apply (isLocalPortActive_invalid_port true 70000 [Listening]). lia.
Defined.

End ProbeFacts.
